(** * rsocktui: the websocket greeting handler

    [src/app.py] holds one coroutine, [root], registered on the websocket
    route ["/"]: it accepts the connection and then, forever, sends the text
    ["Hello!"], prints it, awaits one text message and prints that.

    The handler is embedded as an interaction tree over the four things it
    does to its environment (accept, send_text, receive_text, print).  A run
    is driven by a [peer], which says how every awaited call turns out, and
    is observed as the finite list of events performed within a number of
    steps. *)

From Stdlib Require Import String List Arith Lia Bool.
From ITree Require Import ITree.
Import ListNotations.
Import ITreeNotations.
Local Open Scope itree_scope.
Local Open Scope string_scope.
Local Open Scope list_scope.

(** ** The transport boundary *)

(** Modelled from the spec: the exception classes of the websocket library are
    not part of [src/]; section 7 of the specification names the three ways a
    call on the connection can fail. *)
Inductive exn : Type :=
| HandshakeError
| ConnectionClosed
| TransportError.

(** How an awaited call turns out: it returns a value, it raises, or it never
    resolves (the coroutine stays suspended on it). *)
Inductive reply (A : Type) : Type :=
| Returns (a : A)
| Raises (e : exn)
| Pending.
Arguments Returns {A} a.
Arguments Raises {A} e.
Arguments Pending {A}.

(** The calls [root] makes, indexed by the type of what they give back:
    [ws.accept()], [ws.send_text(data)], [ws.receive_text()] and [print(line)]. *)
Variant wsE : Type -> Type :=
| Accept : wsE unit
| SendText (data : string) : wsE unit
| ReceiveText : wsE string
| Print (line : string) : wsE unit.

(** ** The handler *)

(** Lines 9 to 13 of [src/app.py]: the [while True] loop. *)
Definition greet_forever : itree wsE unit :=
  ITree.forever (
    ITree.trigger (SendText "Hello!") ;;
    ITree.trigger (Print "Hello!") ;;
    received <- ITree.trigger ReceiveText ;;
    ITree.trigger (Print received)).

(** Lines 7 to 13: [root(ws)]. *)
Definition root : itree wsE unit :=
  ITree.trigger Accept ;;
  greet_forever.

(** ** Running the handler against a peer *)

(** What the other side of the connection does: the outcome of the handshake,
    of the n-th [send_text] and of the n-th [receive_text] (counted from 0). *)
Record peer : Type := {
  on_accept : reply unit;
  on_send : nat -> reply unit;
  on_receive : nat -> reply string }.

(** One observable event of a run: a call on the connection with its outcome,
    or a printed line. *)
Inductive ev : Type :=
| EvAccept (r : reply unit)
| EvSend (data : string) (r : reply unit)
| EvReceive (r : reply string)
| EvPrint (line : string).

(** Where a run stands when it is observed: still going, returned from the
    function, unwound by an exception, or suspended on a call that never
    resolves. *)
Inductive status : Type :=
| Running
| Returned
| Raised (e : exn)
| Blocked.

Definition outcome : Type := (list ev * status)%type.

Definition emit (x : ev) (o : outcome) : outcome := (x :: fst o, snd o).

(** [root] has no [try]: an exception raised by an awaited call ends the run. *)
Definition await {A : Type} (r : reply A) (mk : reply A -> ev)
    (k : A -> outcome) : outcome :=
  match r with
  | Returns a => emit (mk (Returns a)) (k a)
  | Raises e => ([mk (Raises e)], Raised e)
  | Pending => ([mk Pending], Blocked)
  end.

(** [exec fuel p ns nr t] runs [t] for at most [fuel] steps against [p], after
    [ns] sends and [nr] receives have completed.  A step is one call or one
    turn of the loop back to its head.  [print] writes its line and goes on:
    standard output is taken to accept every line. *)
Fixpoint exec (fuel : nat) (p : peer) (ns nr : nat) (t : itree wsE unit)
    : outcome :=
  match fuel with
  | 0 => ([], Running)
  | S fuel' =>
    match observe t with
    | RetF _ => ([], Returned)
    | TauF t' => exec fuel' p ns nr t'
    | VisF e k =>
      match e in wsE A return (A -> itree wsE unit) -> outcome with
      | Accept => fun k =>
          await (on_accept p) EvAccept
            (fun a => exec fuel' p ns nr (k a))
      | SendText data => fun k =>
          await (on_send p ns) (EvSend data)
            (fun a => exec fuel' p (S ns) nr (k a))
      | ReceiveText => fun k =>
          await (on_receive p nr) EvReceive
            (fun a => exec fuel' p ns (S nr) (k a))
      | Print line => fun k =>
          emit (EvPrint line) (exec fuel' p ns nr (k tt))
      end k
    end
  end.

Definition run (fuel : nat) (p : peer) : outcome := exec fuel p 0 0 root.

Definition trace (fuel : nat) (p : peer) : list ev := fst (run fuel p).

Definition state (fuel : nat) (p : peer) : status := snd (run fuel p).

(** ** Reading a trace *)

Inductive dir : Type := DSend | DReceive.

Definition flip (d : dir) : dir :=
  match d with DSend => DReceive | DReceive => DSend end.

Definition dir_eqb (a b : dir) : bool :=
  match a, b with
  | DSend, DSend | DReceive, DReceive => true
  | _, _ => false
  end.

(** The exception an event ended with, if it did. *)
Definition failure (x : ev) : option exn :=
  match x with
  | EvAccept (Raises e) | EvSend _ (Raises e) | EvReceive (Raises e) => Some e
  | _ => None
  end.

(** The sends and receives of a trace, in order (attempts included). *)
Definition is_wire (x : ev) : bool :=
  match x with
  | EvSend _ _ | EvReceive _ => true
  | _ => false
  end.

Definition wire_ops (tr : list ev) : list ev := filter is_wire tr.

Fixpoint wire_dirs (tr : list ev) : list dir :=
  match tr with
  | [] => []
  | EvSend _ _ :: tr' => DSend :: wire_dirs tr'
  | EvReceive _ :: tr' => DReceive :: wire_dirs tr'
  | _ :: tr' => wire_dirs tr'
  end.

Fixpoint sent_payloads (tr : list ev) : list string :=
  match tr with
  | [] => []
  | EvSend data _ :: tr' => data :: sent_payloads tr'
  | _ :: tr' => sent_payloads tr'
  end.

(** The texts the peer delivered, in order. *)
Fixpoint received_payloads (tr : list ev) : list string :=
  match tr with
  | [] => []
  | EvReceive (Returns s) :: tr' => s :: received_payloads tr'
  | _ :: tr' => received_payloads tr'
  end.

(** A line of the log stream.  [origin] is the operation the line reports: the
    send or receive that succeeded last before the line was printed. *)
Record log_record : Type := {
  origin : option dir;
  content : string }.

Definition after (x : ev) (last : option dir) : option dir :=
  match x with
  | EvSend _ (Returns _) => Some DSend
  | EvReceive (Returns _) => Some DReceive
  | EvPrint _ => last
  | _ => None
  end.

Fixpoint log_from (last : option dir) (tr : list ev) : list log_record :=
  match tr with
  | [] => []
  | EvPrint line :: tr' =>
      {| origin := last; content := line |} :: log_from last tr'
  | x :: tr' => log_from (after x last) tr'
  end.

Definition log_stream (tr : list ev) : list log_record := log_from None tr.

Definition is_about (d : dir) (l : log_record) : bool :=
  match origin l with
  | Some d' => dir_eqb d d'
  | None => false
  end.

Definition sent_logs (log : list log_record) : list string :=
  map content (filter (is_about DSend) log).

Definition received_logs (log : list log_record) : list string :=
  map content (filter (is_about DReceive) log).

(** The log records a trace calls for: one per send that succeeded, carrying
    the text sent, and one per receive that succeeded, carrying the text
    received. *)
Fixpoint owed_logs (tr : list ev) : list log_record :=
  match tr with
  | [] => []
  | EvSend data (Returns _) :: tr' =>
      {| origin := Some DSend; content := data |} :: owed_logs tr'
  | EvReceive (Returns s) :: tr' =>
      {| origin := Some DReceive; content := s |} :: owed_logs tr'
  | _ :: tr' => owed_logs tr'
  end.

(** [alternation d k]: [d], the other direction, [d], ... ([k] entries). *)
Fixpoint alternation (d : dir) (k : nat) : list dir :=
  match k with
  | 0 => []
  | S k' => d :: alternation (flip d) k'
  end.

Fixpoint adjacent_distinct (l : list (option dir)) : bool :=
  match l with
  | a :: ((b :: _) as l') =>
      match a, b with
      | Some x, Some y => negb (dir_eqb x y) && adjacent_distinct l'
      | _, _ => adjacent_distinct l'
      end
  | _ => true
  end.

Definition greeting : string := "Hello!".

(** A print that follows a failed call in the trace: the trace of a handler
    that reports the failure on the log stream. *)
Fixpoint failure_logged (tr : list ev) : bool :=
  match tr with
  | [] => false
  | x :: tr' =>
      match failure x with
      | Some _ => existsb (fun y => match y with EvPrint _ => true | _ => false end) tr'
      | None => failure_logged tr'
      end
  end.

(** The order of a trace, content left out. *)
Inductive ev_kind : Type := KAccept | KSend | KReceive | KPrint.

Definition kind_of (x : ev) : ev_kind :=
  match x with
  | EvAccept _ => KAccept
  | EvSend _ _ => KSend
  | EvReceive _ => KReceive
  | EvPrint _ => KPrint
  end.

(** The first [k] steps of send, print, receive, print, send, ... *)
Fixpoint loop_schedule (k : nat) : list ev_kind :=
  match k with
  | 0 => []
  | 1 => [KSend]
  | 2 => [KSend; KPrint]
  | 3 => [KSend; KPrint; KReceive]
  | S (S (S (S k'))) => KSend :: KPrint :: KReceive :: KPrint :: loop_schedule k'
  end.

Definition schedule (k : nat) : list ev_kind :=
  match k with
  | 0 => []
  | S k' => KAccept :: loop_schedule k'
  end.

(** Iterations that ran to their end: the receive was logged. *)
Definition completed_iterations (tr : list ev) : nat :=
  length (received_logs (log_stream tr)).

(** ** Peers *)

(** Turn [n] goes through: the n-th send and the n-th receive both succeed. *)
Definition turn_completes (p : peer) (n : nat) : bool :=
  match on_send p n, on_receive p n with
  | Returns _, Returns _ => true
  | _, _ => false
  end.

(** A peer under which no call ever fails or hangs. *)
Definition always_succeeds (p : peer) : Prop :=
  on_accept p = Returns tt /\
  forall n, on_send p n = Returns tt /\ exists s, on_receive p n = Returns s.

(** Two peers deliver the same: the same handshake outcome and, turn by turn
    up to and including the first turn that does not go through, the same
    outcome of the send and of the receive.  What either would have done
    after that turn is left open. *)
Definition same_delivery (p1 p2 : peer) : Prop :=
  on_accept p1 = on_accept p2 /\
  forall n, (forall m, m < n -> turn_completes p1 m = true) ->
    on_send p1 n = on_send p2 n /\
    (on_send p1 n = Returns tt -> on_receive p1 n = on_receive p2 n).

(** Answers every greeting with ["ping"]. *)
Definition echo_peer : peer :=
  {| on_accept := Returns tt;
     on_send := fun _ => Returns tt;
     on_receive := fun _ => Returns "ping" |}.

(** Answers turn [n] with [n + 1] letters ["m"]: a different text each turn. *)
Definition counting_peer : peer :=
  {| on_accept := Returns tt;
     on_send := fun _ => Returns tt;
     on_receive := fun n => Returns (String.concat "" (repeat "m" (S n))) |}.

(** Rejects the upgrade. *)
Definition refusing_peer : peer :=
  {| on_accept := Raises HandshakeError;
     on_send := fun _ => Returns tt;
     on_receive := fun _ => Returns "ping" |}.

(** Connects and closes before replying. *)
Definition hangup_peer : peer :=
  {| on_accept := Returns tt;
     on_send := fun _ => Returns tt;
     on_receive := fun _ => Raises ConnectionClosed |}.

(** Replies ["ping"] once, then closes while the handler waits. *)
Definition closing_peer : peer :=
  {| on_accept := Returns tt;
     on_send := fun _ => Returns tt;
     on_receive := fun n =>
       match n with 0 => Returns "ping" | _ => Raises ConnectionClosed end |}.

(** Replies ["ping"] once, then the network resets under the receive. *)
Definition reset_peer : peer :=
  {| on_accept := Returns tt;
     on_send := fun _ => Returns tt;
     on_receive := fun n =>
       match n with 0 => Returns "ping" | _ => Raises TransportError end |}.

(** Like [closing_peer] up to the close, and different afterwards. *)
Definition closing_peer' : peer :=
  {| on_accept := Returns tt;
     on_send := fun n => match n with 0 | 1 => Returns tt | _ => Raises TransportError end;
     on_receive := fun n =>
       match n with 0 => Returns "ping" | 1 => Raises ConnectionClosed | _ => Returns "late" end |}.

(** Connects and never says anything. *)
Definition silent_peer : peer :=
  {| on_accept := Returns tt;
     on_send := fun _ => Returns tt;
     on_receive := fun _ => Pending |}.

(** ** The shape of a run *)

(** The traces of the loop entered at turn [n], by where the run is cut or
    ends. *)
Inductive loop_trace (p : peer) : nat -> list ev -> status -> Prop :=
| lt_cut n :
    loop_trace p n [] Running
| lt_send_raises n e :
    on_send p n = Raises e ->
    loop_trace p n [EvSend greeting (Raises e)] (Raised e)
| lt_send_pending n :
    on_send p n = Pending ->
    loop_trace p n [EvSend greeting Pending] Blocked
| lt_sent n :
    on_send p n = Returns tt ->
    loop_trace p n [EvSend greeting (Returns tt)] Running
| lt_sent_logged n :
    on_send p n = Returns tt ->
    loop_trace p n [EvSend greeting (Returns tt); EvPrint greeting] Running
| lt_receive_raises n e :
    on_send p n = Returns tt -> on_receive p n = Raises e ->
    loop_trace p n
      [EvSend greeting (Returns tt); EvPrint greeting; EvReceive (Raises e)]
      (Raised e)
| lt_receive_pending n :
    on_send p n = Returns tt -> on_receive p n = Pending ->
    loop_trace p n
      [EvSend greeting (Returns tt); EvPrint greeting; EvReceive Pending]
      Blocked
| lt_received n s :
    on_send p n = Returns tt -> on_receive p n = Returns s ->
    loop_trace p n
      [EvSend greeting (Returns tt); EvPrint greeting; EvReceive (Returns s)]
      Running
| lt_turn n s tr st :
    on_send p n = Returns tt -> on_receive p n = Returns s ->
    loop_trace p (S n) tr st ->
    loop_trace p n
      (EvSend greeting (Returns tt) :: EvPrint greeting ::
       EvReceive (Returns s) :: EvPrint s :: tr) st.

Inductive root_trace (p : peer) : list ev -> status -> Prop :=
| rt_cut :
    root_trace p [] Running
| rt_accept_raises e :
    on_accept p = Raises e ->
    root_trace p [EvAccept (Raises e)] (Raised e)
| rt_accept_pending :
    on_accept p = Pending ->
    root_trace p [EvAccept Pending] Blocked
| rt_accepted tr st :
    on_accept p = Returns tt ->
    loop_trace p 0 tr st ->
    root_trace p (EvAccept (Returns tt) :: tr) st.

(** ** Whole runs, written out *)

(** The text the peer delivers to the n-th receive (empty when it delivers
    none). *)
Definition delivered (p : peer) (n : nat) : string :=
  match on_receive p n with
  | Returns s => s
  | _ => ""
  end.

(** The events of one turn of the loop that goes through, the peer replying
    [s]. *)
Definition turn_events (s : string) : list ev :=
  [EvSend "Hello!" (Returns tt); EvPrint "Hello!";
   EvReceive (Returns s); EvPrint s].

(** The events of turns [k], [k + 1], ..., [k + n - 1], all going through. *)
Fixpoint turns (p : peer) (k n : nat) : list ev :=
  match n with
  | 0 => []
  | S n' => turn_events (delivered p k) ++ turns p (S k) n'
  end.

(** The lines printed over those turns. *)
Fixpoint turn_lines (p : peer) (k n : nat) : list string :=
  match n with
  | 0 => []
  | S n' => "Hello!" :: delivered p k :: turn_lines p (S k) n'
  end.

Definition printed (tr : list ev) : list string :=
  map content (log_stream tr).


Definition is_send (x : ev) : bool :=
  match x with
  | EvSend _ _ => true
  | _ => false
  end.

(** Two replies end the same way, whatever value they carry. *)
Definition same_ending {A : Type} (r1 r2 : reply A) : Prop :=
  match r1, r2 with
  | Returns _, Returns _ => True
  | Raises e1, Raises e2 => e1 = e2
  | Pending, Pending => True
  | _, _ => False
  end.

(** Two peers that differ at most in the texts they deliver. *)
Definition differ_in_text_only (p1 p2 : peer) : Prop :=
  on_accept p1 = on_accept p2 /\
  (forall n, on_send p1 n = on_send p2 n) /\
  (forall n, same_ending (on_receive p1 n) (on_receive p2 n)).


(** Never completes the handshake. *)
Definition stuck_peer : peer :=
  {| on_accept := Pending;
     on_send := fun _ => Returns tt;
     on_receive := fun _ => Returns "ping" |}.

(** Takes two greetings with a reply each; the third send finds the
    connection closed. *)
Definition deaf_peer : peer :=
  {| on_accept := Returns tt;
     on_send := fun n =>
       match n with 0 | 1 => Returns tt | _ => Raises ConnectionClosed end;
     on_receive := fun n => Returns (String.concat "" (repeat "m" (S n))) |}.

(** ** One iteration of the loop, unrolled *)

(** [root] awaits the handshake and then enters the loop. *)
Lemma exec_root (fuel : nat) (p : peer) :
  exec (S fuel) p 0 0 root =
  await (on_accept p) EvAccept (fun _ => exec fuel p 0 0 greet_forever).
Proof.
  cbn. unfold await.
  destruct (on_accept p); [|reflexivity|reflexivity].
  destruct fuel; reflexivity.
Qed.

(** Turn [n] of the loop, call by call: send, print, receive, print, and one
    more step back to the head of the loop for turn [n + 1]. *)
Lemma exec_loop (fuel : nat) (p : peer) (n : nat) :
  exec (S fuel) p n n greet_forever =
  await (on_send p n) (EvSend greeting) (fun _ =>
    match fuel with
    | 0 => ([], Running)
    | S f1 =>
      emit (EvPrint greeting)
        match f1 with
        | 0 => ([], Running)
        | S f2 =>
          await (on_receive p n) EvReceive (fun s =>
            match f2 with
            | 0 => ([], Running)
            | S f3 =>
              emit (EvPrint s)
                match f3 with
                | 0 => ([], Running)
                | S f4 => exec f4 p (S n) (S n) greet_forever
                end
            end)
        end
    end).
Proof.
  cbn. unfold await.
  destruct (on_send p n); [|reflexivity|reflexivity].
  destruct fuel as [|f1]; [reflexivity|]. cbn.
  destruct f1 as [|f2]; [reflexivity|]. cbn.
  destruct (on_receive p n); [|reflexivity|reflexivity].
  destruct f2 as [|f3]; [reflexivity|]. cbn.
  destruct f3 as [|f4]; reflexivity.
Qed.

(** Every run is one of the traces listed by [loop_trace] and [root_trace]. *)
Lemma exec_loop_trace (p : peer) (fuel n : nat) :
  loop_trace p n (fst (exec fuel p n n greet_forever))
                 (snd (exec fuel p n n greet_forever)).
Proof.
  revert n. induction fuel as [fuel IH] using lt_wf_ind. intros n.
  destruct fuel as [|f0]; [constructor|].
  rewrite exec_loop. unfold await.
  destruct (on_send p n) as [[]|e|] eqn:Hs; [|now constructor|now constructor].
  destruct f0 as [|f1]; [now constructor|].
  destruct f1 as [|f2]; [now constructor|].
  destruct (on_receive p n) as [s|e|] eqn:Hr;
    [|now constructor|now constructor].
  destruct f2 as [|f3]; [now constructor|].
  destruct f3 as [|f4]; cbn [emit fst snd].
  - apply lt_turn; auto. constructor.
  - apply lt_turn; auto. apply IH. lia.
Qed.

Lemma run_root_trace (p : peer) (fuel : nat) :
  root_trace p (trace fuel p) (state fuel p).
Proof.
  unfold trace, state, run. destruct fuel as [|f]; [constructor|].
  rewrite exec_root. unfold await.
  destruct (on_accept p) as [[]|e|] eqn:Ha; [|now constructor|now constructor].
  cbn [emit fst snd]. constructor; auto. apply exec_loop_trace.
Qed.

(** ** What holds of [exec] on every tree *)

Lemma exec_S (fuel : nat) (p : peer) (ns nr : nat) (t : itree wsE unit) :
  exec (S fuel) p ns nr t =
  match observe t with
  | RetF _ => ([], Returned)
  | TauF t' => exec fuel p ns nr t'
  | VisF e k =>
    match e in wsE A return (A -> itree wsE unit) -> outcome with
    | Accept => fun k =>
        await (on_accept p) EvAccept (fun a => exec fuel p ns nr (k a))
    | SendText data => fun k =>
        await (on_send p ns) (EvSend data)
          (fun a => exec fuel p (S ns) nr (k a))
    | ReceiveText => fun k =>
        await (on_receive p nr) EvReceive
          (fun a => exec fuel p ns (S nr) (k a))
    | Print line => fun k => emit (EvPrint line) (exec fuel p ns nr (k tt))
    end k
  end.
Proof. reflexivity. Qed.

Ltac step_exec :=
  rewrite !exec_S;
  match goal with
  | |- context [observe ?t] =>
      destruct (observe t) as [?|?|? [| | |] ?]
  end;
  unfold await, emit in *;
  repeat match goal with
  | |- context [on_accept ?p] => destruct (on_accept p)
  | |- context [on_send ?p ?n] => destruct (on_send p n)
  | |- context [on_receive ?p ?n] => destruct (on_receive p n)
  end;
  cbn [fst snd] in *.

(** A run that has ended stays as it is, however long it is observed. *)
Lemma exec_stable_S (p : peer) (fuel ns nr : nat) (t : itree wsE unit) :
  snd (exec fuel p ns nr t) <> Running ->
  exec (S fuel) p ns nr t = exec fuel p ns nr t.
Proof.
  revert ns nr t. induction fuel as [|f IH]; intros ns nr t H.
  - now contradiction H.
  - revert H. step_exec; intros H; auto; now rewrite IH.
Qed.

Lemma exec_stable (p : peer) (fuel fuel' ns nr : nat) (t : itree wsE unit) :
  snd (exec fuel p ns nr t) <> Running -> fuel <= fuel' ->
  exec fuel' p ns nr t = exec fuel p ns nr t.
Proof.
  intros H Hle. induction Hle as [|m Hle IH]; [reflexivity|].
  rewrite exec_stable_S; [exact IH|]. now rewrite IH.
Qed.

(** Observing longer only extends the trace. *)
Lemma exec_extends_S (p : peer) (fuel ns nr : nat) (t : itree wsE unit) :
  exists rest,
    fst (exec (S fuel) p ns nr t) = fst (exec fuel p ns nr t) ++ rest.
Proof.
  revert ns nr t. induction fuel as [|f IH]; intros ns nr t.
  - eexists. reflexivity.
  - step_exec; try (exists []; reflexivity); auto;
      match goal with
      | |- context [exec (S f) p ?a ?b ?u] =>
          destruct (IH a b u) as [rest ->]; exists rest; reflexivity
      end.
Qed.

Lemma exec_extends (p : peer) (fuel fuel' ns nr : nat) (t : itree wsE unit) :
  fuel <= fuel' ->
  exists rest,
    fst (exec fuel' p ns nr t) = fst (exec fuel p ns nr t) ++ rest.
Proof.
  intros Hle. induction Hle as [|m Hle [rest IH]].
  - exists []. now rewrite app_nil_r.
  - destruct (exec_extends_S p m ns nr t) as [rest' E].
    exists (rest ++ rest'). now rewrite E, IH, app_assoc.
Qed.

(** No event follows a call that raised, and the run ends with that
    exception. *)
Lemma exec_failure_last (p : peer) (fuel ns nr : nat) (t : itree wsE unit)
    (pre post : list ev) (x : ev) (e : exn) :
  fst (exec fuel p ns nr t) = pre ++ x :: post ->
  failure x = Some e ->
  post = [] /\ snd (exec fuel p ns nr t) = Raised e.
Proof.
  revert ns nr t pre. induction fuel as [|f IH]; intros ns nr t pre H Hx.
  - destruct pre; discriminate.
  - revert H. step_exec; intros H; eauto;
      try (destruct pre; discriminate);
      destruct pre as [|y pre]; cbn in H; injection H as <- H; subst;
      try discriminate; eauto;
      try (destruct pre; discriminate);
      cbn in Hx; injection Hx as <-; auto.
Qed.

(** ** Peers that deliver the same *)

Lemma exec_loop_same (p1 p2 : peer) (fuel n : nat) :
  (forall k, n <= k ->
     (forall m, n <= m < k -> turn_completes p1 m = true) ->
     on_send p1 k = on_send p2 k /\
     (on_send p1 k = Returns tt -> on_receive p1 k = on_receive p2 k)) ->
  exec fuel p1 n n greet_forever = exec fuel p2 n n greet_forever.
Proof.
  revert n. induction fuel as [fuel IH] using lt_wf_ind. intros n H.
  destruct fuel as [|f0]; [reflexivity|].
  rewrite !exec_loop.
  destruct (H n) as [Hs Hr]; [lia|intros m Hm; lia|].
  rewrite <- Hs. unfold await.
  destruct (on_send p1 n) as [[]|e|] eqn:Es; [|reflexivity|reflexivity].
  rewrite <- (Hr eq_refl).
  destruct f0 as [|f1]; [reflexivity|].
  destruct f1 as [|f2]; [reflexivity|].
  destruct (on_receive p1 n) as [s|e|] eqn:Er; [|reflexivity|reflexivity].
  destruct f2 as [|f3]; [reflexivity|].
  destruct f3 as [|f4]; [reflexivity|].
  rewrite (IH f4); [reflexivity|lia|].
  intros k Hk Hall. apply H; [lia|].
  intros m Hm. destruct (Nat.eq_dec m n) as [->|Hne].
  - unfold turn_completes. now rewrite Es, Er.
  - apply Hall. lia.
Qed.

Lemma run_same (p1 p2 : peer) (fuel : nat) :
  same_delivery p1 p2 -> run fuel p1 = run fuel p2.
Proof.
  intros [Ha H]. unfold run. destruct fuel as [|f]; [reflexivity|].
  rewrite !exec_root, <- Ha. unfold await.
  destruct (on_accept p1) as [[]|e|]; [|reflexivity|reflexivity].
  rewrite (exec_loop_same p1 p2); [reflexivity|].
  intros k _ Hall. apply H. intros m Hm. apply Hall. lia.
Qed.

Lemma closing_peers_same_delivery : same_delivery closing_peer closing_peer'.
Proof.
  split; [reflexivity|].
  intros [|[|n]] H; [split; reflexivity|split; reflexivity|].
  specialize (H 1 ltac:(lia)). discriminate H.
Qed.

(** ** The claims on failure, order of the first calls and determinism *)

(** C4: when the handshake fails with [HandshakeError], the run consists of
    the failed accept alone: it ends there with that exception, before the
    loop is entered, with no send, no receive and no log record. *)
Theorem handshake_failure_isolated (p : peer) (fuel : nat)
    (H : on_accept p = Raises HandshakeError) :
  wire_ops (trace fuel p) = [] /\
  log_stream (trace fuel p) = [] /\
  (0 < fuel ->
   run fuel p = ([EvAccept (Raises HandshakeError)], Raised HandshakeError)).
Proof.
  unfold trace, run. destruct fuel as [|f].
  - repeat split. intros Hf. inversion Hf.
  - rewrite exec_root, H. repeat split.
Qed.

Lemma handshake_failure_isolated_witness :
  on_accept refusing_peer = Raises HandshakeError /\
  wire_ops (trace 7 refusing_peer) = [] /\
  log_stream (trace 7 refusing_peer) = [] /\
  (0 < 7 ->
   run 7 refusing_peer =
   ([EvAccept (Raises HandshakeError)], Raised HandshakeError)).
Proof.
  split; [reflexivity|].
  apply (handshake_failure_isolated refusing_peer 7). reflexivity.
Defined.

(** C5: when a call on the connection raises (a send, a receive, the peer
    closing under a pending receive), that call is the last event of the run:
    nothing is sent, received or logged after it, the run has ended with the
    exception, and it stays ended however much longer it is observed. *)
Theorem failure_ends_the_run (p : peer) (fuel : nat)
    (pre post : list ev) (x : ev) (e : exn)
    (Htr : trace fuel p = pre ++ x :: post)
    (Hx : failure x = Some e) :
  post = [] /\
  state fuel p = Raised e /\
  forall fuel', fuel <= fuel' -> run fuel' p = run fuel p.
Proof.
  unfold trace, state, run in *.
  destruct (exec_failure_last p fuel 0 0 root pre post x e Htr Hx) as [Hp Hs].
  repeat split; auto.
  intros fuel' Hle. apply exec_stable; [|exact Hle].
  rewrite Hs. discriminate.
Qed.

Lemma failure_ends_the_run_witness :
  trace 9 closing_peer =
    [EvAccept (Returns tt);
     EvSend greeting (Returns tt); EvPrint greeting;
     EvReceive (Returns "ping"); EvPrint "ping";
     EvSend greeting (Returns tt); EvPrint greeting]
    ++ EvReceive (Raises ConnectionClosed) :: [] /\
  failure (EvReceive (Raises ConnectionClosed)) = Some ConnectionClosed /\
  @nil ev = [] /\
  state 9 closing_peer = Raised ConnectionClosed /\
  forall fuel', 9 <= fuel' -> run fuel' closing_peer = run 9 closing_peer.
Proof.
  split; [reflexivity|]. split; [reflexivity|].
  apply (failure_ends_the_run closing_peer 9
           [EvAccept (Returns tt);
            EvSend greeting (Returns tt); EvPrint greeting;
            EvReceive (Returns "ping"); EvPrint "ping";
            EvSend greeting (Returns tt); EvPrint greeting]
           [] (EvReceive (Raises ConnectionClosed)) ConnectionClosed);
    reflexivity.
Defined.

(** C9: after a successful accept the first call on the connection is the
    send of ["Hello!"]; no run has a receive before its first send; and under
    a peer that accepts the greeting and never sends anything the run stays
    suspended on the first receive, with that one send and no other. *)
Theorem first_call_is_the_greeting (p : peer)
    (Hacc : on_accept p = Returns tt) :
  (forall fuel, 2 <= fuel ->
     exists rest,
       trace fuel p =
       EvAccept (Returns tt) :: EvSend "Hello!" (on_send p 0) :: rest) /\
  (forall fuel, hd_error (wire_dirs (trace fuel p)) <> Some DReceive) /\
  (on_send p 0 = Returns tt -> on_receive p 0 = Pending ->
   forall fuel, 4 <= fuel ->
     run fuel p =
     ([EvAccept (Returns tt); EvSend "Hello!" (Returns tt); EvPrint "Hello!";
       EvReceive Pending], Blocked)).
Proof.
  unfold trace, run. repeat split.
  - intros [|[|f]] Hf; try lia.
    rewrite exec_root, Hacc, exec_loop. unfold await, emit.
    destruct (on_send p 0) as [[]|e|]; eexists; reflexivity.
  - intros [|f]; [discriminate|].
    rewrite exec_root, Hacc. unfold await, emit. cbn [fst wire_dirs].
    destruct f as [|f]; [discriminate|].
    rewrite exec_loop. unfold await, emit.
    destruct (on_send p 0) as [[]|e|]; discriminate.
  - intros Hs Hr [|[|[|[|f]]]] Hf; try lia.
    now rewrite exec_root, Hacc, exec_loop, Hs, Hr.
Qed.

Lemma first_call_is_the_greeting_witness :
  on_accept silent_peer = Returns tt /\
  (forall fuel, 2 <= fuel ->
     exists rest,
       trace fuel silent_peer =
       EvAccept (Returns tt) :: EvSend "Hello!" (on_send silent_peer 0) :: rest) /\
  (forall fuel, hd_error (wire_dirs (trace fuel silent_peer)) <> Some DReceive) /\
  (on_send silent_peer 0 = Returns tt -> on_receive silent_peer 0 = Pending ->
   forall fuel, 4 <= fuel ->
     run fuel silent_peer =
     ([EvAccept (Returns tt); EvSend "Hello!" (Returns tt); EvPrint "Hello!";
       EvReceive Pending], Blocked)).
Proof.
  split; [reflexivity|].
  apply (first_call_is_the_greeting silent_peer). reflexivity.
Defined.

(** C10: two runs of [root] against peers that deliver the same (the same
    handshake outcome and, turn by turn up to the first failure, the same
    messages and the same failure) are the same run: the same events with the
    same outcomes in the same order, hence the same log stream and the same
    sequence of calls on the connection; observed for different lengths, the
    shorter run is the beginning of the longer. *)
Theorem root_deterministic (p1 p2 : peer) (H : same_delivery p1 p2) :
  (forall fuel, run fuel p1 = run fuel p2) /\
  (forall fuel,
     log_stream (trace fuel p1) = log_stream (trace fuel p2) /\
     wire_ops (trace fuel p1) = wire_ops (trace fuel p2)) /\
  (forall fuel fuel', fuel <= fuel' ->
     exists rest, trace fuel' p2 = trace fuel p1 ++ rest).
Proof.
  repeat split.
  - intros fuel. now apply run_same.
  - unfold trace. now rewrite (run_same p1 p2 fuel H).
  - unfold trace. now rewrite (run_same p1 p2 fuel H).
  - intros fuel fuel' Hle. unfold trace.
    rewrite (run_same p1 p2 fuel H). now apply exec_extends.
Qed.

Lemma root_deterministic_witness :
  same_delivery closing_peer closing_peer' /\
  (forall fuel, run fuel closing_peer = run fuel closing_peer') /\
  (forall fuel,
     log_stream (trace fuel closing_peer) = log_stream (trace fuel closing_peer') /\
     wire_ops (trace fuel closing_peer) = wire_ops (trace fuel closing_peer')) /\
  (forall fuel fuel', fuel <= fuel' ->
     exists rest, trace fuel' closing_peer' = trace fuel closing_peer ++ rest).
Proof.
  split; [exact closing_peers_same_delivery|].
  apply (root_deterministic closing_peer closing_peer').
  exact closing_peers_same_delivery.
Defined.

(** ** What holds of every trace of the loop *)

Lemma adjacent_distinct_alternation (d : dir) (k : nat) :
  adjacent_distinct (map Some (alternation d k)) = true.
Proof.
  revert d. induction k as [|k IH]; intros d; [reflexivity|].
  specialize (IH (flip d)). destruct k as [|k]; [reflexivity|].
  cbn [alternation map adjacent_distinct] in *. rewrite IH.
  now destruct d.
Qed.

Section LoopTraces.

Variable p : peer.

Lemma loop_trace_schedule n tr st :
  loop_trace p n tr st -> map kind_of tr = loop_schedule (length tr).
Proof.
  induction 1; try reflexivity.
  cbn [map kind_of length loop_schedule]. now rewrite IHloop_trace.
Qed.

Lemma loop_trace_wire_dirs n tr st :
  loop_trace p n tr st ->
  wire_dirs tr = alternation DSend (length (wire_dirs tr)).
Proof.
  induction 1; try reflexivity.
  cbn [wire_dirs length alternation flip]. now rewrite <- IHloop_trace.
Qed.

Lemma loop_trace_log_origins n tr st :
  loop_trace p n tr st ->
  forall l,
    map origin (log_from l tr) =
    map Some (alternation DSend (length (log_from l tr))).
Proof.
  induction 1; intros l; try reflexivity.
  cbn [log_from after map origin length alternation flip].
  now rewrite <- IHloop_trace.
Qed.

Lemma loop_trace_sent_payloads n tr st :
  loop_trace p n tr st -> Forall (eq "Hello!") (sent_payloads tr).
Proof.
  induction 1; cbn [sent_payloads]; repeat constructor; auto.
Qed.

Lemma loop_trace_sent_logs n tr st :
  loop_trace p n tr st ->
  forall l, Forall (eq "Hello!") (sent_logs (log_from l tr)).
Proof.
  unfold sent_logs.
  induction 1; intros l; cbn; repeat constructor; auto.
Qed.

Lemma loop_trace_received_logs n tr st :
  loop_trace p n tr st ->
  forall l i s,
    nth_error (received_logs (log_from l tr)) i = Some s ->
    on_receive p (n + i) = Returns s /\
    nth_error (received_payloads tr) i = Some s.
Proof.
  unfold received_logs.
  induction 1; intros l i t Hi; cbn in Hi;
    try (destruct i; discriminate).
  destruct i as [|i]; cbn in Hi |- *.
  - injection Hi as <-. rewrite Nat.add_0_r. auto.
  - rewrite Nat.add_succ_r. now apply (IHloop_trace (Some DReceive)).
Qed.

Lemma loop_trace_not_returned n tr st :
  loop_trace p n tr st -> st <> Returned.
Proof. induction 1; auto; discriminate. Qed.

Lemma loop_trace_raised n tr st :
  loop_trace p n tr st ->
  forall e, st = Raised e ->
  exists pre x, tr = pre ++ [x] /\ failure x = Some e.
Proof.
  induction 1; intros e' He; try discriminate.
  - injection He as <-. now exists [], (EvSend greeting (Raises e)).
  - injection He as <-.
    now exists [EvSend greeting (Returns tt); EvPrint greeting],
               (EvReceive (Raises e)).
  - destruct (IHloop_trace e' He) as (pre & x & -> & Hx).
    now exists (EvSend greeting (Returns tt) :: EvPrint greeting ::
                EvReceive (Returns s) :: EvPrint s :: pre), x.
Qed.

Lemma loop_trace_running n tr st :
  always_succeeds p -> loop_trace p n tr st -> st = Running.
Proof.
  intros [_ Hok]. induction 1; auto;
    destruct (Hok n) as [Hs [s' Hr]]; congruence.
Qed.

Lemma loop_trace_failure_unlogged n tr st :
  loop_trace p n tr st -> failure_logged tr = false.
Proof. induction 1; auto. Qed.

Lemma loop_trace_log_attributed n tr st :
  loop_trace p n tr st ->
  forall l, Forall (fun r => origin r <> None) (log_from l tr).
Proof.
  induction 1; intros l; cbn; repeat constructor; auto; discriminate.
Qed.

End LoopTraces.

(** ** Logging follows every successful call by one step *)

Lemma exec_loop_logs (p : peer) (fuel n : nat) (l : option dir) :
  log_from l (fst (exec (S fuel) p n n greet_forever)) =
  owed_logs (fst (exec fuel p n n greet_forever)).
Proof.
  revert n l. induction fuel as [fuel IH] using lt_wf_ind. intros n l.
  rewrite exec_loop. destruct fuel as [|f0].
  - unfold await. destruct (on_send p n) as [[]|e|]; reflexivity.
  - rewrite exec_loop. unfold await.
    destruct (on_send p n) as [[]|e|]; [|reflexivity|reflexivity].
    destruct f0 as [|f1]; [reflexivity|].
    destruct f1 as [|f2].
    { destruct (on_receive p n) as [s|e|]; reflexivity. }
    destruct (on_receive p n) as [s|e|]; [|reflexivity|reflexivity].
    destruct f2 as [|f3]; [reflexivity|].
    destruct f3 as [|f4]; [reflexivity|].
    cbn [emit fst snd log_from owed_logs after].
    rewrite (IH f4); [reflexivity|lia].
Qed.

Lemma run_logs (p : peer) (fuel : nat) :
  log_stream (trace (S fuel) p) = owed_logs (trace fuel p).
Proof.
  unfold log_stream, trace, run. rewrite exec_root.
  destruct fuel as [|f].
  - unfold await. destruct (on_accept p) as [[]|e|]; reflexivity.
  - rewrite exec_root. unfold await.
    destruct (on_accept p) as [[]|e|]; [|reflexivity|reflexivity].
    cbn [emit fst snd log_from owed_logs after]. apply exec_loop_logs.
Qed.

(** ** The loop never runs out of turns *)

Lemma exec_loop_turns (p : peer) (k n : nat) (l : option dir) :
  always_succeeds p ->
  length (received_logs (log_from l (fst (exec (k * 5) p n n greet_forever))))
  = k.
Proof.
  intros [_ Hok]. revert n l. induction k as [|k IH]; intros n l; [reflexivity|].
  destruct (Hok n) as [Hs [s Hr]].
  cbn [Nat.mul Nat.add]. rewrite exec_loop, Hs, Hr.
  unfold received_logs in *.
  cbn [await emit fst snd log_from after filter is_about origin dir_eqb
       map length].
  now rewrite IH.
Qed.

Lemma echo_peer_always_succeeds : always_succeeds echo_peer.
Proof. split; [reflexivity|]. intros n. split; [reflexivity|]. now exists "ping". Qed.

(** ** The claims on the order and content of what is sent and logged *)

(** C1: in every run the events come in the order accept, then send, log,
    receive, log, send, log, ...: the calls on the connection alternate
    starting with a send (the N-th send is call 2N, the N-th receive call
    2N+1), the log records alternate starting with one for a send, and no two
    records for a send and no two records for a receive are adjacent in the
    log stream. *)
Theorem sends_and_receives_alternate (fuel : nat) (p : peer) :
  map kind_of (trace fuel p) = schedule (length (trace fuel p)) /\
  wire_dirs (trace fuel p) =
    alternation DSend (length (wire_dirs (trace fuel p))) /\
  map origin (log_stream (trace fuel p)) =
    map Some (alternation DSend (length (log_stream (trace fuel p)))) /\
  adjacent_distinct (map origin (log_stream (trace fuel p))) = true.
Proof.
  assert (Hlog : map origin (log_stream (trace fuel p)) =
            map Some (alternation DSend (length (log_stream (trace fuel p))))).
  { unfold log_stream. destruct (run_root_trace p fuel); try reflexivity.
    cbn [log_from after]. now apply loop_trace_log_origins with (p := p) (n := 0) (st := st). }
  repeat split; auto.
  - destruct (run_root_trace p fuel); try reflexivity.
    cbn [map kind_of length schedule]. f_equal.
    now apply loop_trace_schedule with (p := p) (n := 0) (st := st).
  - destruct (run_root_trace p fuel); try reflexivity.
    cbn [wire_dirs].
    now apply loop_trace_wire_dirs with (p := p) (n := 0) (st := st).
  - rewrite Hlog. apply adjacent_distinct_alternation.
Qed.

(** C2: every text sent on the connection, and the content of every log
    record for a send, is the literal ["Hello!"], in every iteration. *)
Theorem greeting_is_fixed (fuel : nat) (p : peer) :
  Forall (eq "Hello!") (sent_payloads (trace fuel p)) /\
  Forall (eq "Hello!") (sent_logs (log_stream (trace fuel p))).
Proof.
  unfold log_stream.
  destruct (run_root_trace p fuel); cbn [sent_payloads log_from after];
    try (split; constructor).
  split.
  - now apply loop_trace_sent_payloads with (p := p) (n := 0) (st := st).
  - now apply loop_trace_sent_logs with (p := p) (n := 0) (st := st).
Qed.

(** C3: the content of the n-th log record for a receive is, unchanged, the
    text the peer delivered to the n-th receive. *)
Theorem received_log_is_faithful (fuel : nat) (p : peer) (n : nat) (s : string)
    (H : nth_error (received_logs (log_stream (trace fuel p))) n = Some s) :
  on_receive p n = Returns s /\
  nth_error (received_payloads (trace fuel p)) n = Some s.
Proof.
  revert H. unfold log_stream.
  destruct (run_root_trace p fuel) as [|e He|He|tr st Ha Hl];
    cbn [log_from after received_payloads]; intros H;
    try (destruct n; discriminate).
  now apply (loop_trace_received_logs p 0 tr st Hl None n s).
Qed.

Lemma received_log_is_faithful_witness :
  nth_error (received_logs (log_stream (trace 12 counting_peer))) 1 = Some "mm" /\
  on_receive counting_peer 1 = Returns "mm" /\
  nth_error (received_payloads (trace 12 counting_peer)) 1 = Some "mm".
Proof.
  split; [reflexivity|].
  apply (received_log_is_faithful 12 counting_peer 1 "mm"). reflexivity.
Defined.

(** C8: every send that succeeds and every receive that succeeds is followed,
    one step later, by exactly one log record, carrying the greeting for a
    send and the received text for a receive, and the log stream holds
    nothing else; a run that has ended has logged every success.  (The
    handler's effects are the calls of [wsE]: it keeps no state.) *)
Theorem one_log_record_per_success (fuel : nat) (p : peer) :
  log_stream (trace (S fuel) p) = owed_logs (trace fuel p) /\
  (state fuel p <> Running ->
   log_stream (trace fuel p) = owed_logs (trace fuel p)) /\
  Forall (fun r => origin r <> None) (log_stream (trace fuel p)).
Proof.
  split; [apply run_logs|]. split.
  - intros H. rewrite <- run_logs. unfold trace, run.
    now rewrite exec_stable_S.
  - unfold log_stream.
    destruct (run_root_trace p fuel) as [|e He|He|tr st Ha Hl];
      try constructor.
    cbn [log_from after].
    now apply loop_trace_log_attributed with (p := p) (n := 0) (st := st).
Qed.

(** C6: [root] never returns.  Under a peer with which every call succeeds
    the run is still going however long it is observed, and for every [n] it
    gets through more than [n] iterations; under any peer, a run that has
    ended was ended by an exception raised by its last call. *)
Theorem root_runs_until_disconnect (p : peer) (H : always_succeeds p) :
  (forall n, exists fuel,
     n < completed_iterations (trace fuel p) /\ state fuel p = Running) /\
  (forall fuel, state fuel p = Running) /\
  (forall q fuel, state fuel q <> Returned) /\
  (forall q fuel e, state fuel q = Raised e ->
     exists pre x, trace fuel q = pre ++ [x] /\ failure x = Some e).
Proof.
  assert (Hrun : forall fuel, state fuel p = Running).
  { intros fuel. destruct (run_root_trace p fuel) as [|e He|He|tr st Ha Hl];
      try reflexivity; try (destruct H; congruence).
    now apply loop_trace_running with (p := p) (n := 0) (tr := tr). }
  repeat split; auto.
  - intros n. exists (S (S n * 5)). split; [|apply Hrun].
    unfold completed_iterations, log_stream, trace, run.
    rewrite exec_root. rewrite (proj1 H).
    cbv beta iota delta [await emit]. cbn [fst snd log_from after].
    rewrite exec_loop_turns; [lia|exact H].
  - intros q fuel. destruct (run_root_trace q fuel); try discriminate.
    now apply loop_trace_not_returned with (p := q) (n := 0) (tr := tr).
  - intros q fuel e He.
    destruct (run_root_trace q fuel) as [|e' Ha|Ha|tr st Ha Hl];
      try discriminate.
    + injection He as <-. now exists [], (EvAccept (Raises e')).
    + destruct (loop_trace_raised q 0 tr st Hl e He) as (pre & x & -> & Hx).
      now exists (EvAccept (Returns tt) :: pre), x.
Qed.

Lemma root_runs_until_disconnect_witness :
  always_succeeds echo_peer /\
  (forall n, exists fuel,
     n < completed_iterations (trace fuel echo_peer) /\
     state fuel echo_peer = Running) /\
  (forall fuel, state fuel echo_peer = Running) /\
  (forall q fuel, state fuel q <> Returned) /\
  (forall q fuel e, state fuel q = Raised e ->
     exists pre x, trace fuel q = pre ++ [x] /\ failure x = Some e).
Proof.
  split; [exact echo_peer_always_succeeds|].
  apply (root_runs_until_disconnect echo_peer).
  exact echo_peer_always_succeeds.
Defined.

(** ** Failures and the log stream *)

(** C7, against the claim: the network resets under the second receive; the
    run ends with [TransportError] and nothing is printed after the failed
    call, so the log stream is the one of the run in which the peer closes
    the connection at the same turn. *)
Lemma transport_error_is_not_logged :
  run 9 reset_peer =
    ([EvAccept (Returns tt);
      EvSend "Hello!" (Returns tt); EvPrint "Hello!";
      EvReceive (Returns "ping"); EvPrint "ping";
      EvSend "Hello!" (Returns tt); EvPrint "Hello!";
      EvReceive (Raises TransportError)], Raised TransportError) /\
  failure_logged (trace 9 reset_peer) = false /\
  log_stream (trace 9 reset_peer) = log_stream (trace 9 closing_peer).
Proof. repeat split. Qed.

(** C7, as the code has it: [root] logs no failure, of either kind.  No line
    is printed after a call that raised, and the log stream of a run ended by
    an exception holds the records of the sends and receives that succeeded
    and nothing more. *)
Theorem failures_are_not_logged (fuel : nat) (p : peer) :
  failure_logged (trace fuel p) = false /\
  (forall e, state fuel p = Raised e ->
     log_stream (trace fuel p) = owed_logs (trace fuel p)).
Proof.
  split.
  - destruct (run_root_trace p fuel) as [|e He|He|tr st Ha Hl];
      try reflexivity.
    cbn [failure_logged failure].
    now apply loop_trace_failure_unlogged with (p := p) (n := 0) (st := st).
  - intros e He. rewrite <- run_logs. unfold trace, state, run in *.
    rewrite exec_stable_S; [reflexivity|]. rewrite He. discriminate.
Qed.

(** ** The scenarios of the specification, run *)

(** Scenario A: the peer replies ["ping"]; the handler logs the greeting,
    then the reply, and sends the greeting again. *)
Example scenario_A :
  run 7 echo_peer =
  ([EvAccept (Returns tt);
    EvSend "Hello!" (Returns tt); EvPrint "Hello!";
    EvReceive (Returns "ping"); EvPrint "ping";
    EvSend "Hello!" (Returns tt)], Running).
Proof. reflexivity. Qed.

(** Scenario B: the peer closes before replying; one line is logged and the
    run ends with [ConnectionClosed]. *)
Example scenario_B :
  run 20 hangup_peer =
  ([EvAccept (Returns tt);
    EvSend "Hello!" (Returns tt); EvPrint "Hello!";
    EvReceive (Raises ConnectionClosed)], Raised ConnectionClosed) /\
  map content (log_stream (trace 20 hangup_peer)) = ["Hello!"].
Proof. split; reflexivity. Qed.

(** ** Turns that go through, composed *)

Lemma turn_completes_inv (p : peer) (n : nat) :
  turn_completes p n = true ->
  on_send p n = Returns tt /\ on_receive p n = Returns (delivered p n).
Proof.
  unfold turn_completes, delivered.
  destruct (on_send p n) as [[]|e|]; try discriminate.
  destruct (on_receive p n) as [s|e|]; try discriminate. auto.
Qed.

(** [n] turns that go through take five steps each and leave the loop at its
    head, [n] turns later. *)
Lemma exec_loop_turns_then (p : peer) (n k f : nat) :
  (forall m, k <= m < k + n -> turn_completes p m = true) ->
  exec (n * 5 + f) p k k greet_forever =
  (turns p k n ++ fst (exec f p (k + n) (k + n) greet_forever),
   snd (exec f p (k + n) (k + n) greet_forever)).
Proof.
  revert k. induction n as [|n IH]; intros k H.
  - cbn [Nat.mul Nat.add turns app]. rewrite Nat.add_0_r.
    now destruct (exec f p k k greet_forever).
  - destruct (turn_completes_inv p k) as [Hs Hr]; [apply H; lia|].
    cbn [Nat.mul Nat.add]. rewrite exec_loop, Hs, Hr.
    cbv beta iota delta [await emit]. rewrite IH by (intros m Hm; apply H; lia).
    cbn [fst snd turns turn_events app]. now rewrite Nat.add_succ_r.
Qed.

Lemma log_from_turns (p : peer) (n k : nat) (l : option dir) (tr : list ev) :
  map content (log_from l (turns p k n ++ tr)) =
  turn_lines p k n ++
  map content (log_from (match n with 0 => l | _ => Some DReceive end) tr).
Proof.
  revert k l. induction n as [|n IH]; intros k l; [reflexivity|].
  cbn [turns turn_events app log_from after map content turn_lines].
  rewrite IH. now destruct n.
Qed.

Lemma run_turns_then (p : peer) (n f : nat) :
  on_accept p = Returns tt ->
  (forall m, m < n -> turn_completes p m = true) ->
  run (S (n * 5 + f)) p =
  (EvAccept (Returns tt) :: turns p 0 n ++
     fst (exec f p n n greet_forever),
   snd (exec f p n n greet_forever)).
Proof.
  intros Ha H. unfold run. rewrite exec_root, Ha.
  cbv beta iota delta [await emit].
  rewrite exec_loop_turns_then by (intros m Hm; apply H; lia).
  reflexivity.
Qed.

Lemma counting_peer_completes (m : nat) : turn_completes counting_peer m = true.
Proof. reflexivity. Qed.

Lemma deaf_peer_completes (m : nat) : m < 2 -> turn_completes deaf_peer m = true.
Proof. intros H. destruct m as [|[|m]]; [reflexivity|reflexivity|lia]. Qed.

Lemma closing_peer_completes (m : nat) :
  m < 1 -> turn_completes closing_peer m = true.
Proof. intros H. destruct m as [|m]; [reflexivity|lia]. Qed.

(** ** Whole runs *)

(** X1: when the handshake and the first [n] turns go through, the run after
    [n] turns is the accept followed, turn by turn, by send, print of the
    greeting, receive and print of the reply, and it is still going; the
    lines printed are the greeting and the peer's reply, [n] times over. *)
Theorem run_of_complete_turns (p : peer) (n : nat)
    (Ha : on_accept p = Returns tt)
    (H : forall m, m < n -> turn_completes p m = true) :
  run (S (n * 5)) p = (EvAccept (Returns tt) :: turns p 0 n, Running) /\
  printed (trace (S (n * 5)) p) = turn_lines p 0 n.
Proof.
  assert (E : run (S (n * 5)) p =
              (EvAccept (Returns tt) :: turns p 0 n, Running)).
  { rewrite <- (Nat.add_0_r (n * 5)), (run_turns_then p n 0 Ha H).
    cbn [exec fst snd]. now rewrite app_nil_r. }
  split; [exact E|].
  unfold printed, log_stream, trace. rewrite E. cbn [fst log_from after].
  rewrite <- (app_nil_r (turns p 0 n)), log_from_turns.
  cbn [log_from map]. now rewrite app_nil_r.
Qed.

Lemma run_of_complete_turns_witness :
  on_accept counting_peer = Returns tt /\
  run 11 counting_peer =
    ([EvAccept (Returns tt);
      EvSend "Hello!" (Returns tt); EvPrint "Hello!";
      EvReceive (Returns "m"); EvPrint "m";
      EvSend "Hello!" (Returns tt); EvPrint "Hello!";
      EvReceive (Returns "mm"); EvPrint "mm"], Running) /\
  printed (trace 11 counting_peer) = ["Hello!"; "m"; "Hello!"; "mm"].
Proof.
  split; [reflexivity|].
  apply (run_of_complete_turns counting_peer 2); [reflexivity|].
  intros m _. apply counting_peer_completes.
Defined.

(** X2: when the send of turn [n] raises after [n] turns that went through,
    the whole run is those [n] turns and the failed send: it ends with the
    exception, the greeting of turn [n] is not printed, and the lines printed
    are those of the [n] turns. *)
Theorem run_ends_at_failed_send (p : peer) (n : nat) (e : exn) (fuel : nat)
    (Ha : on_accept p = Returns tt)
    (H : forall m, m < n -> turn_completes p m = true)
    (Hs : on_send p n = Raises e)
    (Hf : n * 5 + 2 <= fuel) :
  run fuel p =
    (EvAccept (Returns tt) :: turns p 0 n ++ [EvSend "Hello!" (Raises e)],
     Raised e) /\
  printed (trace fuel p) = turn_lines p 0 n.
Proof.
  assert (E0 : run (S (n * 5 + 1)) p =
    (EvAccept (Returns tt) :: turns p 0 n ++ [EvSend "Hello!" (Raises e)],
     Raised e)).
  { rewrite (run_turns_then p n 1 Ha H), exec_loop, Hs. reflexivity. }
  assert (E : run fuel p = run (S (n * 5 + 1)) p).
  { unfold run in *. apply exec_stable; [|lia]. rewrite E0. discriminate. }
  rewrite E0 in E. split; [exact E|].
  unfold printed, log_stream, trace. rewrite E. cbn [fst log_from after].
  rewrite log_from_turns. cbn [log_from after map]. now rewrite app_nil_r.
Qed.

Lemma run_ends_at_failed_send_witness :
  on_accept deaf_peer = Returns tt /\
  on_send deaf_peer 2 = Raises ConnectionClosed /\
  run 40 deaf_peer =
    ([EvAccept (Returns tt);
      EvSend "Hello!" (Returns tt); EvPrint "Hello!";
      EvReceive (Returns "m"); EvPrint "m";
      EvSend "Hello!" (Returns tt); EvPrint "Hello!";
      EvReceive (Returns "mm"); EvPrint "mm";
      EvSend "Hello!" (Raises ConnectionClosed)], Raised ConnectionClosed) /\
  printed (trace 40 deaf_peer) = ["Hello!"; "m"; "Hello!"; "mm"].
Proof.
  split; [reflexivity|]. split; [reflexivity|].
  apply (run_ends_at_failed_send deaf_peer 2 ConnectionClosed 40);
    [reflexivity|exact deaf_peer_completes|reflexivity|].
  cbn. lia.
Defined.

(** X3: when the receive of turn [n] raises after [n] turns that went
    through and a send that succeeded, the whole run is those [n] turns, the
    send, the print of the greeting and the failed receive: the last greeting
    is on the log stream although no reply to it ever came. *)
Theorem run_ends_at_failed_receive (p : peer) (n : nat) (e : exn) (fuel : nat)
    (Ha : on_accept p = Returns tt)
    (H : forall m, m < n -> turn_completes p m = true)
    (Hs : on_send p n = Returns tt)
    (Hr : on_receive p n = Raises e)
    (Hf : n * 5 + 4 <= fuel) :
  run fuel p =
    (EvAccept (Returns tt) :: turns p 0 n ++
       [EvSend "Hello!" (Returns tt); EvPrint "Hello!"; EvReceive (Raises e)],
     Raised e) /\
  printed (trace fuel p) = turn_lines p 0 n ++ ["Hello!"].
Proof.
  assert (E0 : run (S (n * 5 + 3)) p =
    (EvAccept (Returns tt) :: turns p 0 n ++
       [EvSend "Hello!" (Returns tt); EvPrint "Hello!"; EvReceive (Raises e)],
     Raised e)).
  { rewrite (run_turns_then p n 3 Ha H), exec_loop, Hs, Hr. reflexivity. }
  assert (E : run fuel p = run (S (n * 5 + 3)) p).
  { unfold run in *. apply exec_stable; [|lia]. rewrite E0. discriminate. }
  rewrite E0 in E. split; [exact E|].
  unfold printed, log_stream, trace. rewrite E. cbn [fst log_from after].
  rewrite log_from_turns. reflexivity.
Qed.

Lemma run_ends_at_failed_receive_witness :
  on_accept closing_peer = Returns tt /\
  on_send closing_peer 1 = Returns tt /\
  on_receive closing_peer 1 = Raises ConnectionClosed /\
  run 30 closing_peer =
    ([EvAccept (Returns tt);
      EvSend "Hello!" (Returns tt); EvPrint "Hello!";
      EvReceive (Returns "ping"); EvPrint "ping";
      EvSend "Hello!" (Returns tt); EvPrint "Hello!";
      EvReceive (Raises ConnectionClosed)], Raised ConnectionClosed) /\
  printed (trace 30 closing_peer) = ["Hello!"; "ping"; "Hello!"].
Proof.
  split; [reflexivity|]. split; [reflexivity|]. split; [reflexivity|].
  apply (run_ends_at_failed_receive closing_peer 1 ConnectionClosed 30);
    [reflexivity|exact closing_peer_completes|reflexivity|reflexivity|].
  cbn. lia.
Defined.

(** ** Calls that never resolve *)




(** ** Lock step *)

Lemma loop_trace_lock_step (p : peer) (n : nat) (tr : list ev) (st : status) :
  loop_trace p n tr st ->
  length (received_payloads tr) <= length (sent_payloads tr)
    <= S (length (received_payloads tr)).
Proof.
  induction 1; cbn [received_payloads sent_payloads length] in *; lia.
Qed.

(** X5: the handler works in lock step with the peer.  In every run the
    greetings sent so far (attempts included) are at least as many as the
    replies received and at most one more: greeting [n + 1] is not sent
    before reply [n] has arrived. *)
Theorem one_greeting_outstanding (fuel : nat) (p : peer) :
  length (received_payloads (trace fuel p))
    <= length (sent_payloads (trace fuel p))
    <= S (length (received_payloads (trace fuel p))).
Proof.
  destruct (run_root_trace p fuel) as [|e He|He|tr st Ha Hl];
    cbn [received_payloads sent_payloads length]; try lia.
  now apply loop_trace_lock_step with (p := p) (n := 0) (st := st).
Qed.

(** ** What the peer says does not steer the handler *)

Lemma exec_loop_text_blind (p1 p2 : peer) (fuel n : nat) :
  (forall k, on_send p1 k = on_send p2 k) ->
  (forall k, same_ending (on_receive p1 k) (on_receive p2 k)) ->
  snd (exec fuel p1 n n greet_forever) = snd (exec fuel p2 n n greet_forever) /\
  map kind_of (fst (exec fuel p1 n n greet_forever)) =
    map kind_of (fst (exec fuel p2 n n greet_forever)) /\
  filter is_send (fst (exec fuel p1 n n greet_forever)) =
    filter is_send (fst (exec fuel p2 n n greet_forever)).
Proof.
  intros Hs Hr. revert n.
  induction fuel as [fuel IH] using lt_wf_ind. intros n.
  destruct fuel as [|f0]; [repeat split|].
  rewrite !exec_loop, <- Hs. unfold await.
  destruct (on_send p1 n) as [[]|e|]; [|repeat split|repeat split].
  destruct f0 as [|f1]; [repeat split|].
  destruct f1 as [|f2]; [repeat split|].
  specialize (Hr n).
  destruct (on_receive p1 n) as [s1|e1|], (on_receive p2 n) as [s2|e2|];
    cbn in Hr; try contradiction; subst; [|repeat split|repeat split].
  destruct f2 as [|f3]; [repeat split|].
  destruct f3 as [|f4]; [repeat split|].
  destruct (IH f4 ltac:(lia) (S n)) as (A & B & C).
  cbn [emit fst snd map kind_of filter is_send]. rewrite A, B, C.
  repeat split.
Qed.

Lemma echo_counting_differ_in_text_only :
  differ_in_text_only echo_peer counting_peer.
Proof. repeat split. Qed.

(** X6: the handler never looks at the text it receives.  Against two peers
    that differ at most in the texts they deliver, the runs have the same
    status at every length, the same calls and prints in the same order, and
    the same sends with the same outcomes: no reply, whatever it says (the
    empty text included), stops the loop or changes what is sent. *)
Theorem replies_do_not_steer (p1 p2 : peer) (fuel : nat)
    (H : differ_in_text_only p1 p2) :
  state fuel p1 = state fuel p2 /\
  map kind_of (trace fuel p1) = map kind_of (trace fuel p2) /\
  filter is_send (trace fuel p1) = filter is_send (trace fuel p2).
Proof.
  destruct H as (Ha & Hs & Hr). unfold state, trace, run.
  destruct fuel as [|f]; [repeat split|].
  rewrite !exec_root, <- Ha. unfold await.
  destruct (on_accept p1) as [[]|e|]; [|repeat split|repeat split].
  destruct (exec_loop_text_blind p1 p2 f 0 Hs Hr) as (A & B & C).
  cbn [emit fst snd map kind_of filter is_send]. rewrite A, B, C.
  repeat split.
Qed.

Lemma replies_do_not_steer_witness :
  differ_in_text_only echo_peer counting_peer /\
  state 23 echo_peer = state 23 counting_peer /\
  map kind_of (trace 23 echo_peer) = map kind_of (trace 23 counting_peer) /\
  filter is_send (trace 23 echo_peer) = filter is_send (trace 23 counting_peer).
Proof.
  split; [exact echo_counting_differ_in_text_only|].
  apply (replies_do_not_steer echo_peer counting_peer 23).
  exact echo_counting_differ_in_text_only.
Defined.
